(** * partial-map-with-default: getters over partial, tag-keyed registries

    A model of [src/partial-map-with-default/index.ts].  The TypeScript types
    are kept as (dependent) Rocq types; the JavaScript run time is kept where
    the getters depend on it: [T | undefined] is [option T], the operator
    [||] tests truthiness and evaluates its right operand only when needed,
    and an array literal allocates a new array in the store, so that an array
    value is a reference and two arrays with equal items can be told apart. *)

From stdpp Require Import base option list strings.

(** ** JavaScript run time: truthiness *)

(** [ToBoolean] of a value of static type [A]. *)
Class Truthy (A : Type) := truthy : A → bool.

(** The empty string is the only falsy string. *)
#[export] Instance string_truthy : Truthy string :=
  λ s, match s with EmptyString => false | String _ _ => true end.

(** A function is an object, and every object is truthy. *)
#[export] Instance function_truthy {A B : Type} : Truthy (A → B) := λ _, true.

(** [undefined] is falsy; a defined value keeps its own truthiness. *)
#[export] Instance optional_truthy {A : Type} `{Truthy A} : Truthy (option A) :=
  λ x, match x with Some v => truthy v | None => false end.

(** ** JavaScript run time: arrays in a store, keyed by a closed tag set *)

Section KeyedStore.
Context {Tag : Type} (Shape : Tag → Type).

(** An allocated array: the tag of its static element type and its items. *)
Definition cell : Type := { t : Tag & list (Shape t) }.

(** The store: the arrays allocated so far; an address is a position. *)
Local Abbreviation store := (list cell).

(** A value of static type [Shape(t)[]] is a reference to an array. *)
Record ArrayRef (t : Tag) : Type := Ref { addr : nat }.

(** An array is an object, and every object is truthy, the empty array
    too. *)
#[export] Instance array_truthy (t : Tag) : Truthy (ArrayRef t) := λ _, true.

(** Evaluation of an expression: from a store to a value and a store. *)
Definition M (A : Type) : Type := store → A * store.

Definition ret {A : Type} (a : A) : M A := λ σ, (a, σ).

Definition bind {A B : Type} (m : M A) (k : A → M B) : M B :=
  λ σ, let '(a, σ') := m σ in k a σ'.

(** The array literal [[x1, ..., xn]] at element type [Shape t]: a new
    array at the first free address. *)
Definition array_literal (t : Tag) (items : list (Shape t)) : M (ArrayRef t) :=
  λ σ, (Ref t (length σ), σ ++ [existT t items]).

(** What a reference points to. *)
Definition deref {t : Tag} (σ : store) (r : ArrayRef t) : option cell :=
  σ !! addr t r.

(** [x || y]: [x] when it is truthy, else the value of [y], which is not
    evaluated before. *)
Definition or_else {A : Type} `{Truthy A} (x : option A) (y : M A) : M A :=
  match x with
  | Some v => if truthy v then ret v else y
  | None => y
  end.

(** [{ [N in Tag]: F<N> }] and [Partial<{ [N in Tag]: F<N> }>]; [registry
    t] is the property access [registry[t]]. *)
Definition Complete (F : Tag → Type) : Type := ∀ t, F t.
Definition Partial (F : Tag → Type) : Type := ∀ t, option (F t).

(** A complete map used where a partial one is expected. *)
Definition as_partial {F : Tag → Type} (registry : Complete F) : Partial F :=
  λ t, Some (registry t).

(** The body of [getAnimalList] over any tag set and any registry of
    lists. *)
Definition getOrEmpty (registry : Partial ArrayRef) (name : Tag)
  : M (ArrayRef name) :=
  let list : option (ArrayRef name) := registry name in
  or_else list (array_literal name []).
End KeyedStore.

Abbreviation store Shape := (list (cell Shape)).

Arguments Ref {Tag} t addr.
Arguments addr {Tag t} _.
Arguments ret {Tag Shape A} a σ /.
Arguments bind {Tag Shape A B} m k σ /.
Arguments array_literal {Tag Shape} t items σ.
Arguments deref {Tag Shape t} σ r.
Arguments or_else {Tag Shape A _} x y.
Arguments as_partial {Tag F} registry t /.
Arguments getOrEmpty {Tag Shape} registry name.

Notation "'let*' x ':=' m 'in' k" := (bind m (λ x, k))
  (at level 10, x name, m at level 100, k at level 200).

(** ** Ingredients: Animals *)

(** [interface Cat { type: 'cat'; meow: string }]; the field [type] has one
    possible value and is kept as [Cat_type]. *)
Record Cat : Type := mkCat { meow : string }.

(** [interface Fish { type: 'fish' }]. *)
Inductive Fish : Type := mkFish.

Definition Cat_type (_ : Cat) : string := "cat"%string.
Definition Fish_type (_ : Fish) : string := "fish"%string.

(** [type AnyAnimal = Cat | Fish]. *)
Inductive AnyAnimal : Type :=
  | ACat (c : Cat)
  | AFish (f : Fish).

(** [type AnimalName = keyof AnimalRecord], the keys ['Cat'] and ['Fish']. *)
Inductive AnimalName : Type := KCat | KFish.

(** [interface AnimalRecord { Cat: Cat; Fish: Fish }], indexed by its keys. *)
Definition AnimalRecord (N : AnimalName) : Type :=
  match N with
  | KCat => Cat
  | KFish => Fish
  end.

(** [AnimalRecord[N]] is a member of the union [AnyAnimal]. *)
Definition asAnyAnimal {N : AnimalName} : AnimalRecord N → AnyAnimal :=
  match N with
  | KCat => ACat
  | KFish => AFish
  end.

(** ** Case 1: Mapping Type to the List *)

(** [type AnimalList<N> = AnimalRecord[N][]]. *)
Definition AnimalList (N : AnimalName) : Type := ArrayRef N.

(** [type AnimalLists = { [N in AnimalName]: AnimalList<N> }]. *)
Definition AnimalLists : Type := Complete AnimalList.

(** The two [const] declarations run when the module is loaded; each array
    literal allocates. *)
Definition load_lists : M AnimalRecord (Partial AnimalList * AnimalLists) :=
  let* cats := array_literal KCat [mkCat "Did you call me?"%string] in
  let* cats' := array_literal KCat [mkCat "Did you call me?"%string] in
  let* fishes := array_literal KFish [mkFish] in
  ret (Shape := AnimalRecord)
    ((λ N, match N with KCat => Some cats | KFish => None end) : Partial AnimalList,
     (λ N, match N with KCat => cats' | KFish => fishes end) : AnimalLists).

(** The store once the module is loaded. *)
Definition module_store : store AnimalRecord :=
  Eval cbv in snd (load_lists []).

(** [const animalLists: Partial<AnimalLists>]: only [Cat] is given. *)
Definition animalLists : Partial AnimalList :=
  Eval cbv in fst (fst (load_lists [])).

(** [const idealCompleteAnimalLists: AnimalLists]. *)
Definition idealCompleteAnimalLists : AnimalLists :=
  Eval cbv in snd (fst (load_lists [])).

(** [function getAnimalList<N extends AnimalName>(name: N): AnimalList<N>]. *)
Definition getAnimalList (name : AnimalName) : M AnimalRecord (AnimalList name) :=
  let list : option (AnimalList name) := animalLists name in
  or_else list (array_literal name []).

(** The variant the source gives in a comment for comparison,
    [return idealCompleteAnimalLists[name]]: no fallback at all. *)
Definition getIdealAnimalList (name : AnimalName)
  : M AnimalRecord (AnimalList name) :=
  ret (idealCompleteAnimalLists name).

(** ** Case 2: Mapping Types to its Function *)

(** [type AnimalSoundPlayer<N> = (animal: AnimalRecord[N]) => string]. *)
Definition AnimalSoundPlayer (N : AnimalName) : Type := AnimalRecord N → string.

(** [const animalSoundPlayers: Partial<AnimalSoundPlayers>]: only [Cat]. *)
Definition animalSoundPlayers : Partial AnimalSoundPlayer :=
  λ N, match N with
       | KCat => Some (λ cat : Cat, meow cat)
       | KFish => None
       end.

(** [const defaultAnimalSoundPlayer = (animal: AnyAnimal) => 'I am an animal']. *)
Definition defaultAnimalSoundPlayer (animal : AnyAnimal) : string :=
  "I am an animal"%string.

(** [defaultAnimalSoundPlayer] used at type [AnimalSoundPlayer<N>]: the same
    function, its argument seen as a member of [AnyAnimal]. *)
Definition defaultAt (N : AnimalName) : AnimalSoundPlayer N :=
  λ animal, defaultAnimalSoundPlayer (asAnyAnimal animal).

(** [function getAnimalSoundPlayer<N extends AnimalName>(name: N):
    AnimalSoundPlayer<N>]. *)
Definition getAnimalSoundPlayer (name : AnimalName)
  : M AnimalRecord (AnimalSoundPlayer name) :=
  let player : option (AnimalSoundPlayer name) := animalSoundPlayers name in
  or_else player (ret (defaultAt name)).

(** ** A registry with a present, empty list *)

(** For comparison with [animalLists]: a registry whose entry for [Fish] is
    present and empty, on a store that holds that empty array at address 0. *)
Definition emptyFishLists : Partial AnimalList :=
  λ N, match N with
       | KCat => None
       | KFish => Some (Ref KFish 0)
       end.

Definition emptyFishStore : store AnimalRecord := [existT KFish []].

(** ** Registries and call sequences *)

Section KeyedRegistry.
Context {Tag : Type} {Shape : Tag → Type}.

(** Every entry of a registry of lists points, in the store, to an array of
    the entry's own tag. *)
Definition registry_ok (registry : Partial ArrayRef) (σ : store Shape) : Prop :=
  ∀ (t : Tag) (v : ArrayRef t),
    registry t = Some v → ∃ items : list (Shape t), deref σ v = Some (existT t items).

(** The body of [getAnimalSoundPlayer] over any tag set, any registry and
    any fallback: the fallback is a value that exists already, so nothing is
    allocated. *)
Definition getOrDefault {F : Tag → Type} `{∀ t, Truthy (F t)}
  (registry : Partial F) (fallback : Complete F) (name : Tag)
  : M Shape (F name) :=
  let player : option (F name) := registry name in
  or_else player (ret (fallback name)).
End KeyedRegistry.

(** A call of one of the two exported getters. *)
Inductive call : Type :=
  | GetAnimalList (name : AnimalName)
  | GetAnimalSoundPlayer (name : AnimalName).

(** The store a call leaves behind. *)
Definition after (c : call) (σ : store AnimalRecord) : store AnimalRecord :=
  match c with
  | GetAnimalList name => snd (getAnimalList name σ)
  | GetAnimalSoundPlayer name => snd (getAnimalSoundPlayer name σ)
  end.

(** The store a sequence of calls leaves behind, first call first. *)
Fixpoint after_all (calls : list call) (σ : store AnimalRecord)
  : store AnimalRecord :=
  match calls with
  | [] => σ
  | c :: calls => after_all calls (after c σ)
  end.

(** The calls that reach the array literal of [getAnimalList]: those whose
    tag has no entry in [animalLists]. *)
Definition reaches_literal (c : call) : bool :=
  match c with
  | GetAnimalList name =>
      match animalLists name with
      | Some _ => false
      | None => true
      end
  | GetAnimalSoundPlayer _ => false
  end.

(** * Properties *)

(** ** The run-time operators *)

Section KeyedStoreFacts.
Context {Tag : Type} {Shape : Tag → Type}.
Implicit Types (σ : store Shape) (registry : Partial (Tag := Tag) ArrayRef).

(** An array on the left of [||] is returned as it is: the right operand
    is not evaluated. *)
Lemma or_else_array (t : Tag) (v : ArrayRef t) (y : M Shape (ArrayRef t)) σ :
  or_else (Some v) y σ = (v, σ).
Proof. reflexivity. Qed.

Lemma or_else_function {A B : Type} (f : A → B) (y : M Shape (A → B)) σ :
  or_else (Some f) y σ = (f, σ).
Proof. reflexivity. Qed.

(** [||] tests truthiness, not presence: a present empty string gives way
    to the right operand. *)
Lemma or_else_empty_string (y : M Shape string) σ :
  or_else (Some EmptyString) y σ = y σ.
Proof. reflexivity. Qed.

Lemma or_else_undefined {A : Type} `{Truthy A} (y : M Shape A) σ :
  or_else None y σ = y σ.
Proof. reflexivity. Qed.

(** A literal is allocated at an address that was free, and nothing that
    was allocated before moves. *)
Lemma array_literal_fresh (t : Tag) (items : list (Shape t)) σ :
  σ !! addr (fst (array_literal t items σ)) = None.
Proof. apply lookup_ge_None_2. simpl. lia. Qed.

Lemma array_literal_deref (t : Tag) (items : list (Shape t)) σ :
  deref (snd (array_literal t items σ)) (fst (array_literal t items σ))
  = Some (existT t items).
Proof.
  unfold deref, array_literal. simpl. by apply list_lookup_middle.
Qed.

Lemma deref_extend (t : Tag) (r : ArrayRef t) (c : cell Shape) σ σ' :
  σ `prefix_of` σ' → deref σ r = Some c → deref σ' r = Some c.
Proof. intros Hext Hr. by eapply prefix_lookup_Some. Qed.

Lemma getOrEmpty_present registry (t : Tag) (v : ArrayRef t) σ :
  registry t = Some v → getOrEmpty registry t σ = (v, σ).
Proof. intros Hv. unfold getOrEmpty. rewrite Hv. apply or_else_array. Qed.

Lemma getOrEmpty_absent registry (t : Tag) σ :
  registry t = None →
  getOrEmpty registry t σ = (Ref t (length σ), σ ++ [existT t []]).
Proof. intros Hv. unfold getOrEmpty. by rewrite Hv. Qed.

(** Evaluation only ever allocates. *)
Lemma getOrEmpty_extends registry (t : Tag) σ :
  σ `prefix_of` snd (getOrEmpty registry t σ).
Proof.
  destruct (registry t) as [v|] eqn:Hv.
  - by rewrite (getOrEmpty_present _ _ v).
  - rewrite getOrEmpty_absent by done. by apply prefix_app_r.
Qed.
End KeyedStoreFacts.

(** ** The module's constants *)

Lemma AnimalName_closed (N : AnimalName) : N = KCat ∨ N = KFish.
Proof. destruct N; auto. Qed.

Lemma load_lists_run :
  load_lists [] = (animalLists, idealCompleteAnimalLists, module_store).
Proof. reflexivity. Qed.

Lemma animalLists_present (N : AnimalName) (v : AnimalList N) :
  animalLists N = Some v → N = KCat ∧ addr v = 0.
Proof. destruct N; intros [= <-]; done. Qed.

Lemma animalLists_absent (N : AnimalName) : animalLists N = None ↔ N = KFish.
Proof. destruct N; split; done. Qed.

Lemma animalSoundPlayers_present (N : AnimalName) (h : AnimalSoundPlayer N) :
  animalSoundPlayers N = Some h → N = KCat.
Proof. destruct N; done. Qed.

Lemma animalSoundPlayers_absent (N : AnimalName) :
  animalSoundPlayers N = None ↔ N = KFish.
Proof. destruct N; split; done. Qed.

Lemma getAnimalList_getOrEmpty (N : AnimalName) :
  getAnimalList N = getOrEmpty animalLists N.
Proof. reflexivity. Qed.

Lemma getAnimalList_extends (N : AnimalName) (σ : store AnimalRecord) :
  σ `prefix_of` snd (getAnimalList N σ).
Proof. rewrite getAnimalList_getOrEmpty. apply getOrEmpty_extends. Qed.

Lemma getAnimalSoundPlayer_run (N : AnimalName) (σ : store AnimalRecord) :
  getAnimalSoundPlayer N σ
  = (match animalSoundPlayers N with Some h => h | None => defaultAt N end, σ).
Proof. by destruct N. Qed.

(** The two runs of the list getter. *)
Lemma getAnimalList_Cat (σ : store AnimalRecord) :
  getAnimalList KCat σ = (Ref KCat 0, σ).
Proof. reflexivity. Qed.

Lemma getAnimalList_Fish (σ : store AnimalRecord) :
  getAnimalList KFish σ = (Ref KFish (length σ), σ ++ [existT KFish []]).
Proof. reflexivity. Qed.

(** Address 0 keeps the cats of [animalLists] in every later store. *)
Lemma module_store_cats (σ : store AnimalRecord) :
  module_store `prefix_of` σ →
  deref σ (Ref KCat 0) = Some (existT KCat [mkCat "Did you call me?"%string]).
Proof. intros Hσ. by apply (deref_extend _ _ _ module_store). Qed.

(** ** Case 1: the list getter *)

(** C1: for a tag that has an entry in [animalLists], [getAnimalList] returns
    the very reference the registry stores, and allocates nothing; the only
    such tag is [Cat], and the array returned for it holds the one cat that
    says 'Did you call me?'. *)
Theorem getAnimalList_present
  (N : AnimalName) (v : AnimalList N) (σ : store AnimalRecord) :
  module_store `prefix_of` σ →
  animalLists N = Some v →
  N = KCat
  ∧ getAnimalList N σ = (v, σ)
  ∧ deref σ v = Some (existT KCat [mkCat "Did you call me?"%string]).
Proof.
  intros Hσ Hv. destruct (animalLists_present N v Hv) as [-> Hv0].
  split; [done|]. split.
  - unfold getAnimalList. rewrite Hv. apply or_else_array.
  - apply (deref_extend _ _ _ module_store); [done|].
    unfold deref. by rewrite Hv0.
Qed.

Lemma getAnimalList_present_witness :
  module_store `prefix_of` module_store
  ∧ animalLists KCat = Some (Ref KCat 0)
  ∧ KCat = KCat
  ∧ getAnimalList KCat module_store = (Ref KCat 0, module_store)
  ∧ deref module_store (Ref KCat 0)
    = Some (existT KCat [mkCat "Did you call me?"%string]).
Proof.
  split; [reflexivity|]. split; [reflexivity|].
  apply (getAnimalList_present KCat (Ref KCat 0) module_store); reflexivity.
Defined.

(** C2: for a tag that has no entry in [animalLists], [getAnimalList] returns
    a value all the same: a reference to a newly allocated empty array; the
    only such tag is [Fish]. *)
Theorem getAnimalList_absent (N : AnimalName) (σ : store AnimalRecord) :
  animalLists N = None →
  N = KFish
  ∧ ∃ r : AnimalList N,
      getAnimalList N σ = (r, σ ++ [existT N []])
      ∧ deref σ r = None
      ∧ deref (σ ++ [existT N []]) r = Some (existT N []).
Proof.
  intros Habs. split; [by apply animalLists_absent|].
  exists (Ref N (length σ)). split; [|split].
  - rewrite getAnimalList_getOrEmpty. by apply getOrEmpty_absent.
  - apply (array_literal_fresh N [] σ).
  - apply (array_literal_deref N [] σ).
Qed.

Lemma getAnimalList_absent_witness :
  animalLists KFish = None
  ∧ KFish = KFish
  ∧ ∃ r : AnimalList KFish,
      getAnimalList KFish module_store = (r, module_store ++ [existT KFish []])
      ∧ deref module_store r = None
      ∧ deref (module_store ++ [existT KFish []]) r = Some (existT KFish []).
Proof.
  split; [reflexivity|].
  apply (getAnimalList_absent KFish module_store). reflexivity.
Defined.

(** ** Case 2: the handler getter *)

(** C3: for a tag that has an entry in [animalSoundPlayers],
    [getAnimalSoundPlayer] returns the registered handler; the only such tag
    is [Cat], whose handler reads the cat's [meow], so that it answers 'hi'
    on the cat [{type: 'cat', meow: 'hi'}]. *)
Theorem getAnimalSoundPlayer_present
  (N : AnimalName) (h : AnimalSoundPlayer N) (σ : store AnimalRecord) :
  animalSoundPlayers N = Some h →
  N = KCat
  ∧ getAnimalSoundPlayer N σ = (h, σ)
  ∧ (∀ cat : Cat, fst (getAnimalSoundPlayer KCat σ) cat = meow cat)
  ∧ fst (getAnimalSoundPlayer KCat σ) (mkCat "hi"%string) = "hi"%string.
Proof.
  intros Hh. split; [by eapply animalSoundPlayers_present|].
  split; [|done].
  unfold getAnimalSoundPlayer. rewrite Hh. apply or_else_function.
Qed.

Lemma getAnimalSoundPlayer_present_witness :
  animalSoundPlayers KCat = Some (λ cat : Cat, meow cat)
  ∧ KCat = KCat
  ∧ getAnimalSoundPlayer KCat module_store = (λ cat : Cat, meow cat, module_store)
  ∧ (∀ cat : Cat, fst (getAnimalSoundPlayer KCat module_store) cat = meow cat)
  ∧ fst (getAnimalSoundPlayer KCat module_store) (mkCat "hi"%string)
    = "hi"%string.
Proof.
  split; [reflexivity|].
  apply (getAnimalSoundPlayer_present KCat (λ cat : Cat, meow cat) module_store).
  reflexivity.
Defined.

(** C4: for a tag that has no entry in [animalSoundPlayers],
    [getAnimalSoundPlayer] returns [defaultAnimalSoundPlayer]; the only such
    tag is [Fish], and the handler returned for it answers 'I am an animal'
    on the fish [{type: 'fish'}]. *)
Theorem getAnimalSoundPlayer_absent (N : AnimalName) (σ : store AnimalRecord) :
  animalSoundPlayers N = None →
  N = KFish
  ∧ getAnimalSoundPlayer N σ
    = (λ animal : AnimalRecord N, defaultAnimalSoundPlayer (asAnyAnimal animal), σ)
  ∧ fst (getAnimalSoundPlayer KFish σ) mkFish = "I am an animal"%string.
Proof.
  intros Habs. split; [by apply animalSoundPlayers_absent|].
  split; [|done].
  unfold getAnimalSoundPlayer. rewrite Habs. reflexivity.
Qed.

Lemma getAnimalSoundPlayer_absent_witness :
  animalSoundPlayers KFish = None
  ∧ KFish = KFish
  ∧ getAnimalSoundPlayer KFish module_store
    = (λ animal : Fish, defaultAnimalSoundPlayer (AFish animal), module_store)
  ∧ fst (getAnimalSoundPlayer KFish module_store) mkFish
    = "I am an animal"%string.
Proof.
  split; [reflexivity|].
  apply (getAnimalSoundPlayer_absent KFish module_store). reflexivity.
Defined.

(** C10: [defaultAnimalSoundPlayer] is constant: it answers 'I am an animal'
    on every animal, cat or fish, whatever its fields; so a handler obtained
    through the fallback of [getAnimalSoundPlayer] answers the same on any
    two animals. *)
Theorem defaultAnimalSoundPlayer_constant :
  (∀ animal : AnyAnimal,
     defaultAnimalSoundPlayer animal = "I am an animal"%string)
  ∧ (∀ (N : AnimalName) (σ : store AnimalRecord) (a b : AnimalRecord N),
       animalSoundPlayers N = None →
       fst (getAnimalSoundPlayer N σ) a = "I am an animal"%string
       ∧ fst (getAnimalSoundPlayer N σ) a = fst (getAnimalSoundPlayer N σ) b).
Proof.
  split; [done|]. intros N σ a b Habs.
  rewrite getAnimalSoundPlayer_run, Habs. done.
Qed.

Lemma defaultAnimalSoundPlayer_constant_witness :
  defaultAnimalSoundPlayer (ACat (mkCat "purr"%string)) = "I am an animal"%string
  ∧ defaultAnimalSoundPlayer (AFish mkFish) = "I am an animal"%string
  ∧ animalSoundPlayers KFish = None
  ∧ fst (getAnimalSoundPlayer KFish module_store) mkFish = "I am an animal"%string.
Proof.
  destruct defaultAnimalSoundPlayer_constant as [Hconst Hfallback].
  split; [apply Hconst|]. split; [apply Hconst|]. split; [reflexivity|].
  apply (Hfallback KFish module_store mkFish mkFish). reflexivity.
Defined.

(** ** Both getters *)

(** C5: on a store that holds the module's arrays, both getters return a
    defined value for either tag.  The list getter returns a reference that
    points to an array of the queried tag: the registry's own, or else a new
    empty one.  The handler getter returns a handler: the registered one, or
    else the default.  No call fails; in the model a getter has no other
    outcome than a value. *)
Theorem getters_always_defined (N : AnimalName) (σ : store AnimalRecord) :
  module_store `prefix_of` σ →
  (∃ (r : AnimalList N) (σ' : store AnimalRecord) (items : list (AnimalRecord N)),
      getAnimalList N σ = (r, σ')
      ∧ deref σ' r = Some (existT N items)
      ∧ (animalLists N = Some r ∧ σ' = σ
         ∨ animalLists N = None ∧ items = [] ∧ σ' = σ ++ [existT N []]))
  ∧ (∃ f : AnimalSoundPlayer N,
      getAnimalSoundPlayer N σ = (f, σ)
      ∧ (animalSoundPlayers N = Some f
         ∨ animalSoundPlayers N = None
           ∧ f = λ animal, defaultAnimalSoundPlayer (asAnyAnimal animal))).
Proof.
  intros Hσ. split.
  - destruct N.
    + exists (Ref KCat 0), σ, [mkCat "Did you call me?"%string].
      rewrite getAnimalList_Cat. split; [done|].
      split; [by apply module_store_cats|]. by left.
    + exists (Ref KFish (length σ)), (σ ++ [existT KFish []]), [].
      rewrite getAnimalList_Fish. split; [done|].
      split; [apply (array_literal_deref KFish [] σ)|]. by right.
  - rewrite getAnimalSoundPlayer_run.
    destruct (animalSoundPlayers N) as [h|]; eauto.
Qed.

Lemma getters_always_defined_witness :
  module_store `prefix_of` module_store
  ∧ (∃ (r : AnimalList KFish) (σ' : store AnimalRecord) (items : list Fish),
        getAnimalList KFish module_store = (r, σ')
        ∧ deref σ' r = Some (existT KFish items)
        ∧ (animalLists KFish = Some r ∧ σ' = module_store
           ∨ animalLists KFish = None ∧ items = []
             ∧ σ' = module_store ++ [existT KFish []]))
  ∧ (∃ f : AnimalSoundPlayer KFish,
        getAnimalSoundPlayer KFish module_store = (f, module_store)
        ∧ (animalSoundPlayers KFish = Some f
           ∨ animalSoundPlayers KFish = None
             ∧ f = λ animal, defaultAnimalSoundPlayer (asAnyAnimal animal))).
Proof.
  split; [reflexivity|].
  apply (getters_always_defined KFish module_store). reflexivity.
Defined.

(** C6: two calls in a row with the same tag give equal results.  For the
    list getter the two references point to arrays with the same items, and
    they are one reference when the tag has an entry; the calls leave every
    array that was allocated before as it was.  For the handler getter the
    two handlers are one function and the store is not touched. *)
Theorem lookups_repeatable (N : AnimalName) (σ : store AnimalRecord) :
  module_store `prefix_of` σ →
  (let '(r1, σ1) := getAnimalList N σ in
   let '(r2, σ2) := getAnimalList N σ1 in
   (∃ items : list (AnimalRecord N),
       deref σ2 r1 = Some (existT N items)
       ∧ deref σ2 r2 = Some (existT N items))
   ∧ σ `prefix_of` σ2
   ∧ (∀ v : AnimalList N, animalLists N = Some v → r1 = v ∧ r2 = v ∧ σ2 = σ))
  ∧ (let '(f1, σ1) := getAnimalSoundPlayer N σ in
     let '(f2, σ2) := getAnimalSoundPlayer N σ1 in
     f1 = f2 ∧ σ1 = σ ∧ σ2 = σ).
Proof.
  intros Hσ. split.
  - destruct N.
    + rewrite !getAnimalList_Cat. split; [|split].
      * exists [mkCat "Did you call me?"%string].
        by split; apply module_store_cats.
      * done.
      * by intros v [= <-].
    + rewrite !getAnimalList_Fish. split; [|split].
      * exists []. split.
        -- apply (deref_extend _ _ _ (σ ++ [existT KFish []])).
           ++ by apply prefix_app_r.
           ++ apply (array_literal_deref KFish [] σ).
        -- apply (array_literal_deref KFish [] (σ ++ [existT KFish []])).
      * rewrite <- (assoc_L (++)). by apply prefix_app_r.
      * done.
  - rewrite !getAnimalSoundPlayer_run. done.
Qed.

Lemma lookups_repeatable_witness :
  module_store `prefix_of` module_store
  ∧ (let '(r1, σ1) := getAnimalList KFish module_store in
     let '(r2, σ2) := getAnimalList KFish σ1 in
     (∃ items : list Fish,
         deref σ2 r1 = Some (existT KFish items)
         ∧ deref σ2 r2 = Some (existT KFish items))
     ∧ module_store `prefix_of` σ2
     ∧ (∀ v : AnimalList KFish,
          animalLists KFish = Some v → r1 = v ∧ r2 = v ∧ σ2 = module_store))
  ∧ (let '(f1, σ1) := getAnimalSoundPlayer KFish module_store in
     let '(f2, σ2) := getAnimalSoundPlayer KFish σ1 in
     f1 = f2 ∧ σ1 = module_store ∧ σ2 = module_store).
Proof.
  split; [reflexivity|].
  apply (lookups_repeatable KFish module_store). reflexivity.
Defined.

(** The two arrays that two calls with an absent tag return are equal in
    their items only: each call allocates its own. *)
Lemma getAnimalList_Fish_twice_distinct (σ : store AnimalRecord) :
  let '(r1, σ1) := getAnimalList KFish σ in
  let '(r2, _) := getAnimalList KFish σ1 in
  addr r1 ≠ addr r2.
Proof. rewrite !getAnimalList_Fish. simpl. rewrite length_app. simpl. lia. Qed.

(** ** The get-or-default step over any registry *)

(** C8: in the step [list || []] of [getAnimalList], taken over any registry
    of lists, an entry that is present is returned itself, whatever its
    items, an empty array too; the new empty array is made only when the tag
    has no entry. *)
Theorem getAnimalList_empty_list_is_present
  (N : AnimalName) (σ : store AnimalRecord) :
  getAnimalList N = getOrEmpty animalLists N
  ∧ (∀ (registry : Partial AnimalList) (v : AnimalList N),
       registry N = Some v → getOrEmpty registry N σ = (v, σ))
  ∧ (∀ (registry : Partial AnimalList) (v : AnimalList N),
       registry N = Some v → deref σ v = Some (existT N []) →
       getOrEmpty registry N σ = (v, σ)
       ∧ deref (snd (getOrEmpty registry N σ)) (fst (getOrEmpty registry N σ))
         = Some (existT N []))
  ∧ (∀ registry : Partial AnimalList,
       snd (getOrEmpty registry N σ) ≠ σ → registry N = None).
Proof.
  split; [done|]. split; [|split].
  - intros registry v Hv. by apply getOrEmpty_present.
  - intros registry v Hv Hempty. by rewrite (getOrEmpty_present _ _ v).
  - intros registry Hnew. destruct (registry N) as [v|] eqn:Hv; [|done].
    by rewrite (getOrEmpty_present _ _ v) in Hnew.
Qed.

Lemma getAnimalList_empty_list_is_present_witness :
  emptyFishLists KFish = Some (Ref KFish 0)
  ∧ deref emptyFishStore (Ref KFish 0) = Some (existT KFish [])
  ∧ getOrEmpty emptyFishLists KFish emptyFishStore = (Ref KFish 0, emptyFishStore).
Proof.
  split; [reflexivity|]. split; [reflexivity|].
  destruct (getAnimalList_empty_list_is_present KFish emptyFishStore)
    as (_ & Hpresent & _).
  apply (Hpresent emptyFishLists (Ref KFish 0)). reflexivity.
Defined.

(** C9: over the complete registry [idealCompleteAnimalLists] the
    get-or-default lookup returns the stored entry for either tag and makes
    no new array, as the lookup without fallback does.  The same holds over
    any tag set: with a single tag and its entry, or with more tags and an
    entry for the queried one, the lookup returns the entry and leaves the
    store as it was, so that equal entries give equal results. *)
Theorem complete_registry_never_falls_back :
  (∀ (N : AnimalName) (σ : store AnimalRecord),
     getOrEmpty (as_partial idealCompleteAnimalLists) N σ
     = (idealCompleteAnimalLists N, σ)
     ∧ getOrEmpty (as_partial idealCompleteAnimalLists) N σ
       = getIdealAnimalList N σ)
  ∧ (∀ (Tag : Type) (Shape : Tag → Type) (registry : Complete ArrayRef)
       (t : Tag) (σ : store Shape),
       getOrEmpty (as_partial registry) t σ = (registry t, σ))
  ∧ (∀ (Shape1 : unit → Type) (registry1 : Complete ArrayRef)
       (σ1 : store Shape1)
       (Tag : Type) (Shape : Tag → Type) (registry : Partial ArrayRef)
       (t : Tag) (v : ArrayRef t) (σ : store Shape),
       registry t = Some v →
       getOrEmpty (as_partial registry1) () σ1 = (registry1 (), σ1)
       ∧ getOrEmpty registry t σ = (v, σ)
       ∧ (addr (registry1 ()) = addr v →
          addr (fst (getOrEmpty (as_partial registry1) () σ1))
          = addr (fst (getOrEmpty registry t σ)))).
Proof.
  split; [|split].
  - intros N σ. split; by apply getOrEmpty_present.
  - intros Tag Shape registry t σ. by apply getOrEmpty_present.
  - intros Shape1 registry1 σ1 Tag Shape registry t v σ Hv.
    rewrite (getOrEmpty_present (as_partial registry1) () (registry1 ())) by done.
    rewrite (getOrEmpty_present registry t v) by done. done.
Qed.

Lemma complete_registry_never_falls_back_witness :
  animalLists KCat = Some (Ref KCat 0)
  ∧ getOrEmpty (Shape := λ _ : unit, Cat) (as_partial (λ u, Ref u 0)) ()
      [existT () [mkCat "Did you call me?"%string]]
    = (Ref () 0, [existT () [mkCat "Did you call me?"%string]])
  ∧ getOrEmpty animalLists KCat module_store = (Ref KCat 0, module_store).
Proof.
  split; [reflexivity|].
  destruct complete_registry_never_falls_back as (_ & _ & Hsame).
  destruct (Hsame (λ _ : unit, Cat) (λ u, Ref u 0)
              [existT () [mkCat "Did you call me?"%string]]
              AnimalName AnimalRecord animalLists KCat (Ref KCat 0) module_store)
    as (H1 & HN & _); [reflexivity|].
  split; [exact H1|exact HN].
Defined.

(** * Further properties *)

(** ** Well-formed registries *)

Section KeyedRegistryFacts.
Context {Tag : Type} {Shape : Tag → Type}.
Implicit Types (σ : store Shape) (registry : Partial (Tag := Tag) ArrayRef).

Lemma registry_ok_extend registry σ σ' :
  σ `prefix_of` σ' → registry_ok registry σ → registry_ok registry σ'.
Proof.
  intros Hext Hok t v Hv. destruct (Hok t v Hv) as [items Hitems].
  exists items. by apply (deref_extend _ _ _ σ).
Qed.

Lemma deref_live_lt (t : Tag) (r : ArrayRef t) (c : cell Shape) σ :
  deref σ r = Some c → addr r < length σ.
Proof. intros Hr. by apply lookup_lt_Some in Hr. Qed.

(** X1: the getter of lists keeps a well-formed registry well formed and returns
    a reference to an array of the queried tag; it leaves the arrays that
    exist as they are and makes at most one new array. *)
Theorem getOrEmpty_keeps_registry_ok registry (t : Tag) σ :
  registry_ok registry σ →
  let '(r, σ') := getOrEmpty registry t σ in
  (∃ items : list (Shape t), deref σ' r = Some (existT t items))
  ∧ registry_ok registry σ'
  ∧ σ `prefix_of` σ'
  ∧ length σ' = length σ + match registry t with Some _ => 0 | None => 1 end.
Proof.
  intros Hok. destruct (registry t) as [v|] eqn:Hv.
  - rewrite (getOrEmpty_present _ _ v) by done.
    split; [by apply Hok|]. split; [done|]. split; [done|lia].
  - rewrite getOrEmpty_absent by done.
    split; [exists []; apply (array_literal_deref t [] σ)|].
    split; [|split].
    + apply (registry_ok_extend _ σ); [by apply prefix_app_r|done].
    + by apply prefix_app_r.
    + rewrite length_app. simpl. lia.
Qed.

(** X2: the array made for a tag without entry is private: its address is that
    of no entry of a well-formed registry, and of no reference that was
    live before the call. *)
Theorem getOrEmpty_fallback_private registry (t : Tag) σ :
  registry_ok registry σ →
  registry t = None →
  (∀ (t' : Tag) (v' : ArrayRef t'),
     registry t' = Some v' → addr (fst (getOrEmpty registry t σ)) ≠ addr v')
  ∧ (∀ (t' : Tag) (r' : ArrayRef t') (c : cell Shape),
       deref σ r' = Some c → addr (fst (getOrEmpty registry t σ)) ≠ addr r').
Proof.
  intros Hok Habs. rewrite getOrEmpty_absent by done. simpl.
  assert (Hlive : ∀ (t' : Tag) (r' : ArrayRef t') (c : cell Shape),
             deref σ r' = Some c → length σ ≠ addr r').
  { intros t' r' c Hr'. apply deref_live_lt in Hr'. lia. }
  split; [|done].
  intros t' v' Hv'. destruct (Hok t' v' Hv') as [items Hitems].
  by apply (Hlive t' v' (existT t' items)).
Qed.

(** X3: the getter of handlers over any registry and any fallback: a registered
    handler is returned itself, the fallback is returned only for a tag
    without entry, and the store is never touched. *)
Theorem getOrDefault_run {A B : Tag → Type}
  (registry : Partial (λ t, A t → B t)) (fallback : Complete (λ t, A t → B t))
  (t : Tag) σ :
  getOrDefault registry fallback t σ = (default (fallback t) (registry t), σ)
  ∧ (∀ h, registry t = Some h → fst (getOrDefault registry fallback t σ) = h)
  ∧ (registry t = None → fst (getOrDefault registry fallback t σ) = fallback t).
Proof.
  unfold getOrDefault. destruct (registry t) as [h|]; simpl.
  - split; [done|]. split; [by intros ? [= <-]|done].
  - done.
Qed.
End KeyedRegistryFacts.

Lemma animalLists_ok (σ : store AnimalRecord) :
  module_store `prefix_of` σ → registry_ok animalLists σ.
Proof.
  intros Hσ. apply (registry_ok_extend _ module_store); [done|].
  intros [] v [= <-]. by eexists.
Qed.

Lemma idealCompleteAnimalLists_ok (σ : store AnimalRecord) :
  module_store `prefix_of` σ →
  registry_ok (as_partial idealCompleteAnimalLists) σ.
Proof.
  intros Hσ. apply (registry_ok_extend _ module_store); [done|].
  intros [] v [= <-]; by eexists.
Qed.

Lemma getOrEmpty_keeps_registry_ok_witness :
  registry_ok animalLists module_store
  ∧ let '(r, σ') := getOrEmpty animalLists KFish module_store in
    (∃ items : list Fish, deref σ' r = Some (existT KFish items))
    ∧ registry_ok animalLists σ'
    ∧ module_store `prefix_of` σ'
    ∧ length σ' = length module_store + 1.
Proof.
  split; [by apply animalLists_ok|].
  apply (getOrEmpty_keeps_registry_ok animalLists KFish module_store).
  by apply animalLists_ok.
Defined.

Lemma getOrEmpty_fallback_private_witness :
  registry_ok animalLists module_store
  ∧ animalLists KFish = None
  ∧ addr (fst (getOrEmpty animalLists KFish module_store)) ≠ addr (Ref KCat 0).
Proof.
  split; [by apply animalLists_ok|]. split; [reflexivity|].
  destruct (getOrEmpty_fallback_private animalLists KFish module_store)
    as [Hentries _]; [by apply animalLists_ok|reflexivity|].
  apply (Hentries KCat (Ref KCat 0)). reflexivity.
Defined.

Lemma getAnimalSoundPlayer_getOrDefault (N : AnimalName) :
  getAnimalSoundPlayer N
  = getOrDefault (F := AnimalSoundPlayer) animalSoundPlayers defaultAt N.
Proof. reflexivity. Qed.

(** ** Sequences of calls *)

Lemma after_step (c : call) (σ : store AnimalRecord) :
  after c σ = σ ++ (if reaches_literal c then [existT KFish []] else []).
Proof.
  destruct c as [[]|N]; unfold after.
  - rewrite getAnimalList_Cat. simpl. by rewrite app_nil_r.
  - by rewrite getAnimalList_Fish.
  - rewrite getAnimalSoundPlayer_run. simpl. by rewrite app_nil_r.
Qed.

Lemma after_all_app (calls calls' : list call) (σ : store AnimalRecord) :
  after_all (calls ++ calls') σ = after_all calls' (after_all calls σ).
Proof. revert σ. induction calls as [|c calls IH]; intros σ; simpl; auto. Qed.

(** X4: whatever the getters are called with, in whatever order, the store is
    the one the calls found, followed by one empty array of fish for each
    call of [getAnimalList] with a tag that has no entry: no call changes or
    removes an array, none makes an array of cats or an array with items,
    and [getAnimalSoundPlayer] makes none at all. *)
Theorem after_all_store (calls : list call) (σ : store AnimalRecord) :
  after_all calls σ
  = σ ++ replicate (length (List.filter reaches_literal calls)) (existT KFish []).
Proof.
  revert σ. induction calls as [|c calls IH]; intros σ; simpl.
  - by rewrite app_nil_r.
  - rewrite IH, after_step. destruct (reaches_literal c); simpl.
    + by rewrite <- (assoc_L (++)).
    + by rewrite app_nil_r.
Qed.




(** ** The partial registry against the complete one *)

(** Addresses 1 and 2 keep the arrays of [idealCompleteAnimalLists] in every
    later store. *)
Lemma module_store_ideal_cats (σ : store AnimalRecord) :
  module_store `prefix_of` σ →
  deref σ (idealCompleteAnimalLists KCat)
  = Some (existT KCat [mkCat "Did you call me?"%string]).
Proof. intros Hσ. by apply (deref_extend _ _ _ module_store). Qed.

Lemma module_store_ideal_fishes (σ : store AnimalRecord) :
  module_store `prefix_of` σ →
  deref σ (idealCompleteAnimalLists KFish) = Some (existT KFish [mkFish]).
Proof. intros Hσ. by apply (deref_extend _ _ _ module_store). Qed.




(** ** The two getters together *)

(** X7: the handler of a tag played on the animals listed for that tag.  On the
    list that [getAnimalList] returns, every sound comes from a registered
    handler: the cat's own [meow], and nothing for [Fish], whose list is
    empty.  On the list of the complete registry, the fish gets the default
    answer. *)
Theorem sounds_of_listed_animals (N : AnimalName) (σ : store AnimalRecord) :
  module_store `prefix_of` σ →
  let '(r, σ1) := getAnimalList N σ in
  let '(r', σ2) := getIdealAnimalList N σ1 in
  let '(player, σ3) := getAnimalSoundPlayer N σ2 in
  ∃ items items' : list (AnimalRecord N),
    deref σ3 r = Some (existT N items)
    ∧ deref σ3 r' = Some (existT N items')
    ∧ (items ≠ [] → animalSoundPlayers N = Some player)
    ∧ map player items
      = match N with
        | KCat => ["Did you call me?"%string]
        | KFish => []
        end
    ∧ map player items'
      = match N with
        | KCat => ["Did you call me?"%string]
        | KFish => ["I am an animal"%string]
        end.
Proof.
  intros Hσ. unfold getIdealAnimalList. destruct N.
  - rewrite getAnimalList_Cat. simpl.
    exists [mkCat "Did you call me?"%string], [mkCat "Did you call me?"%string].
    split; [by apply module_store_cats|].
    split; [by apply module_store_ideal_cats|done].
  - rewrite getAnimalList_Fish. simpl.
    assert (module_store `prefix_of` σ ++ [existT KFish []]) as Hσ1
      by (etrans; [done|by apply prefix_app_r]).
    exists [], [mkFish].
    split; [apply (array_literal_deref KFish [] σ)|].
    split; [by apply module_store_ideal_fishes|done].
Qed.

Lemma sounds_of_listed_animals_witness :
  module_store `prefix_of` module_store
  ∧ let '(r, σ1) := getAnimalList KCat module_store in
    let '(r', σ2) := getIdealAnimalList KCat σ1 in
    let '(player, σ3) := getAnimalSoundPlayer KCat σ2 in
    ∃ items items' : list Cat,
      deref σ3 r = Some (existT KCat items)
      ∧ deref σ3 r' = Some (existT KCat items')
      ∧ (items ≠ [] → animalSoundPlayers KCat = Some player)
      ∧ map player items = ["Did you call me?"%string]
      ∧ map player items' = ["Did you call me?"%string].
Proof.
  split; [reflexivity|].
  apply (sounds_of_listed_animals KCat module_store). reflexivity.
Defined.

(** ** Loading the module *)

(** X8: loading the two registries into any store appends the module's three
    arrays and touches nothing else.  Both registries are well formed in the
    store that results, all their arrays are new, and no array is shared:
    the entry of the partial registry is another array than the entry of the
    complete one for the same tag. *)
Theorem load_lists_from (σ0 : store AnimalRecord) :
  let '(partial, ideal, σ) := load_lists σ0 in
  σ = σ0 ++ module_store
  ∧ registry_ok partial σ
  ∧ registry_ok (as_partial ideal) σ
  ∧ (∀ N : AnimalName, partial N = None ↔ N = KFish)
  ∧ (∀ N : AnimalName, deref σ0 (ideal N) = None)
  ∧ (∀ (N : AnimalName) (v : AnimalList N),
       partial N = Some v → deref σ0 v = None ∧ addr v ≠ addr (ideal N)).
Proof.
  unfold load_lists, bind, ret, array_literal. simpl.
  rewrite !length_app. simpl.
  rewrite <- !(assoc_L (++)). simpl.
  split; [done|]. split; [|split; [|split; [|split]]].
  - intros [] v [= <-]. eexists. unfold deref. simpl.
    by apply list_lookup_middle.
  - intros [] v [= <-]; eexists; unfold deref; simpl;
      rewrite lookup_app_r by lia.
    + by replace (length σ0 + 1 - length σ0) with 1 by lia.
    + by replace (length σ0 + 1 + 1 - length σ0) with 2 by lia.
  - intros []; split; done.
  - intros []; unfold deref; simpl; apply lookup_ge_None_2; lia.
  - intros [] v [= <-]. split.
    + unfold deref. simpl. apply lookup_ge_None_2. lia.
    + simpl. lia.
Qed.
